(** * lazycpp: deferred values with memoisation

    A shallow embedding of [include/lazycpp.hpp] and a verification of its
    documented behaviour.

    Every C++ object lives at an address of a store; a member function is a
    computation over the store that receives [this].  The store also holds
    the world the producers act on (what they capture by reference) and a
    log of the producer invocations, one entry per call of a stored
    [std::function], naming the instance that made the call. *)

From stdpp Require Import base gmap list.

(** ** Types *)

(** The template parameter [T] ([value_type]), the world a producer may read
    and modify, and the exceptions a producer may raise. *)
Class Template := {
  value_type : Type;
  World : Type;
  Raised : Type;
}.

(** The address of an instance. *)
Definition loc := positive.

Section Types.
Context `{Template}.

(** [std::get] raises [std::bad_variant_access] on the wrong alternative;
    every other exception comes from a producer. *)
Inductive exn :=
| bad_variant_access
| raised (e : Raised).

(** How a call of a producer ends. *)
Inductive outcome :=
| returned (v : value_type)
| thrown (x : exn).

(** [std::function<T()>]: a callable without arguments.  It runs on the
    world it captures by reference and either returns a value or throws.
    It keeps no state of its own between calls and does not reach the lazy
    instances themselves. *)
Definition evaluator_type := World → World * outcome.

(** [std::variant<value_type, evaluator_type>]. *)
Inductive variant :=
| holds_value (v : value_type)
| holds_evaluator (f : evaluator_type).

(** An instance of one of the two classes derived from [LazyConcept<T>],
    with its single data member [storage]. *)
Inductive object :=
| NotLazy_object (storage : value_type)
| VariantLazy_object (storage : variant).

Record machine := Machine {
  world : World;
  heap : gmap loc object;
  invoked : list loc;
}.

(** A computation returns, throws, or has undefined behaviour (a member
    access through a null or dangling pointer). *)
Inductive result (A : Type) :=
| Returned (a : A) (m : machine)
| Thrown (x : exn) (m : machine)
| Undefined.

Definition M (A : Type) := machine → result A.
End Types.

Arguments Returned {_ _} a m.
Arguments Thrown {_ _} x m.
Arguments Undefined {_ _}.

(** ** The computation monad *)

Section Monad.
Context `{Template}.

(** [x ← c; k] runs [c] and then [k]; an exception or undefined
    behaviour in [c] ends the computation. *)
#[export] Instance M_ret : MRet M := λ A a m, Returned a m.

#[export] Instance M_bind : MBind M := λ A B k c m,
  match c m with
  | Returned a m' => k a m'
  | Thrown x m' => Thrown x m'
  | Undefined => Undefined
  end.

Definition throw {A} (x : exn) : M A := λ m, Thrown x m.

Definition undefined {A} : M A := λ _, Undefined.

(** Reading the object at an address. *)
Definition load (p : loc) : M object := λ m,
  match heap m !! p with
  | Some o => Returned o m
  | None => Undefined
  end.

(** Overwriting the object at an address. *)
Definition store (p : loc) (o : object) : M unit := λ m,
  match heap m !! p with
  | Some _ => Returned tt (Machine (world m) (<[p := o]> (heap m)) (invoked m))
  | None => Undefined
  end.

(** Placing a new object at an unused address. *)
Definition alloc (o : object) : M loc := λ m,
  let p := fresh (dom (heap m)) in
  Returned p (Machine (world m) (<[p := o]> (heap m)) (invoked m)).

(** [f()] for the producer [f] stored in the instance [this]: the call is
    logged, the world becomes what the producer leaves, and the producer's
    exception, if any, is the caller's. *)
Definition call (this : loc) (f : evaluator_type) : M value_type := λ m,
  let '(w, r) := f (world m) in
  let m' := Machine w (heap m) (this :: invoked m) in
  match r with
  | returned v => Returned v m'
  | thrown x => Thrown x m'
  end.

(** [std::holds_alternative<value_type>]. *)
Definition holds_alternative_value (s : variant) : bool :=
  match s with
  | holds_value _ => true
  | holds_evaluator _ => false
  end.

(** [std::get<value_type>]. *)
Definition get_value_type (s : variant) : M value_type :=
  match s with
  | holds_value v => mret v
  | holds_evaluator _ => throw bad_variant_access
  end.

(** [std::get<evaluator_type>]. *)
Definition get_evaluator_type (s : variant) : M evaluator_type :=
  match s with
  | holds_evaluator f => mret f
  | holds_value _ => throw bad_variant_access
  end.

(** The machine a computation leaves behind, when there is one. *)
Definition final {A} (r : result A) : option machine :=
  match r with
  | Returned _ m | Thrown _ m => Some m
  | Undefined => None
  end.

(** How often the producer of the instance [p] has been called. *)
Definition invocations (p : loc) (m : machine) : nat :=
  length (filter (λ q, q = p) (invoked m)).
End Monad.

(** ** [class NotLazy : public LazyConcept<T>] *)

Module NotLazy.
Section NotLazy.
Context `{Template}.

(** The member [storage] of the [NotLazy] at [this]. *)
Definition storage (this : loc) : M value_type :=
  o ← load this;
  match o with
  | NotLazy_object s => mret s
  | VariantLazy_object _ => undefined
  end.

Definition set_storage (this : loc) (s : value_type) : M unit :=
  storage this;; store this (NotLazy_object s).

(** [explicit NotLazy(value_type t) : storage(std::move(t))]. *)
Definition ctor (t : value_type) : M loc :=
  alloc (NotLazy_object t).

Definition isEvaluated (this : loc) : M bool := mret true.

Definition do_deref (this : loc) : M value_type := storage this.

Definition do_reassign (this : loc) (value : value_type) : M unit :=
  set_storage this value.
End NotLazy.
End NotLazy.

(** ** [class VariantLazy : public LazyConcept<T>] *)

Module VariantLazy.
Section VariantLazy.
Context `{Template}.

(** The member [storage] of the [VariantLazy] at [this]. *)
Definition storage (this : loc) : M variant :=
  o ← load this;
  match o with
  | VariantLazy_object s => mret s
  | NotLazy_object _ => undefined
  end.

Definition set_storage (this : loc) (s : variant) : M unit :=
  storage this;; store this (VariantLazy_object s).

(** [VariantLazy(evaluator_type evaluator) : storage(std::move(evaluator))]. *)
Definition ctor (evaluator : evaluator_type) : M loc :=
  alloc (VariantLazy_object (holds_evaluator evaluator)).

(** The implicit copy constructor: a member-wise copy of [storage] into a
    new instance ([auto copy = myLazyInt;] in the tests). *)
Definition copy_ctor (other : loc) : M loc :=
  s ← storage other;
  alloc (VariantLazy_object s).

Definition isEvaluated (this : loc) : M bool :=
  s ← storage this;
  mret (holds_alternative_value s).

(** Both overloads of [do_deref] have this body ([storage] is [mutable]).
    The result is the value the returned reference designates. *)
Definition do_deref (this : loc) : M value_type :=
  e ← isEvaluated this;
  (if negb e then
     s ← storage this;
     f ← get_evaluator_type s;
     v ← call this f;
     set_storage this (holds_value v)
   else mret tt);;
  s ← storage this;
  get_value_type s.

(** Both overloads of [do_reassign] are [storage = value]. *)
Definition do_reassign (this : loc) (value : value_type) : M unit :=
  set_storage this (holds_value value).
End VariantLazy.
End VariantLazy.

(** ** [class LazyConcept] *)

Module LazyConcept.
Section LazyConcept.
Context `{Template}.

(** The pure virtual members, resolved on the dynamic type of [*this]. *)
Definition isEvaluated (this : loc) : M bool :=
  o ← load this;
  match o with
  | NotLazy_object _ => NotLazy.isEvaluated this
  | VariantLazy_object _ => VariantLazy.isEvaluated this
  end.

Definition do_deref (this : loc) : M value_type :=
  o ← load this;
  match o with
  | NotLazy_object _ => NotLazy.do_deref this
  | VariantLazy_object _ => VariantLazy.do_deref this
  end.

Definition do_reassign (this : loc) (value : value_type) : M unit :=
  o ← load this;
  match o with
  | NotLazy_object _ => NotLazy.do_reassign this value
  | VariantLazy_object _ => VariantLazy.do_reassign this value
  end.

(** [operator*]. *)
Definition operator_star (this : loc) : M value_type := do_deref this.

Definition get_value (this : loc) : M value_type := do_deref this.

(** [operator=], from an lvalue or an rvalue: inside either overload
    [other] is an lvalue. *)
Definition operator_assign (this : loc) (other : value_type) : M unit :=
  do_reassign this other.
End LazyConcept.
End LazyConcept.

(** ** [class SharedLazy] *)

Module SharedLazy.
Section SharedLazy.
Context `{Template}.

(** [const std::shared_ptr<concept_type> pimpl]: the address of the shared
    instance, or null.  The use count is not part of the model. *)
Record t := Handle { pimpl : option loc }.

Definition ctor (ptr : option loc) : t := Handle ptr.

(** The implicit copy constructor copies the pointer, not the pointee. *)
Definition copy (other : t) : t := Handle (pimpl other).

(** [pimpl->]. *)
Definition arrow (self : t) : M loc :=
  match pimpl self with
  | Some p => mret p
  | None => undefined
  end.

Definition operator_star (self : t) : M value_type :=
  p ← arrow self; LazyConcept.get_value p.

Definition get_value (self : t) : M value_type :=
  p ← arrow self; LazyConcept.get_value p.

Definition isEvaluated (self : t) : M bool :=
  p ← arrow self; LazyConcept.isEvaluated p.
End SharedLazy.
End SharedLazy.

(** [std::make_shared<VariantLazy<T>>(evaluator)]. *)
Definition make_shared_VariantLazy `{Template} (evaluator : evaluator_type)
  : M (option loc) :=
  p ← VariantLazy.ctor evaluator; mret (Some p).

(** ** Client code: sequences of member calls *)

Section Client.
Context `{Template}.

(** The two ways of reading the value of a [LazyConcept]. *)
Inductive access :=
| by_operator_star
| by_get_value.

Definition perform (this : loc) (a : access) : M value_type :=
  match a with
  | by_operator_star => LazyConcept.operator_star this
  | by_get_value => LazyConcept.get_value this
  end.

(** One read after the other on the same instance; the values read. *)
Fixpoint perform_all (this : loc) (l : list access) : M (list value_type) :=
  match l with
  | [] => mret []
  | a :: l => v ← perform this a; vs ← perform_all this l; mret (v :: vs)
  end.

(** The public members of [LazyConcept]. *)
Inductive operation :=
| op_star
| op_get_value
| op_isEvaluated
| op_assign (v : value_type).

Definition run_operation (this : loc) (o : operation) : M unit :=
  match o with
  | op_star => LazyConcept.operator_star this;; mret tt
  | op_get_value => LazyConcept.get_value this;; mret tt
  | op_isEvaluated => LazyConcept.isEvaluated this;; mret tt
  | op_assign v => LazyConcept.operator_assign this v
  end.

(** A program calling members on instances of its choice. *)
Fixpoint run_operations (l : list (loc * operation)) : M unit :=
  match l with
  | [] => mret tt
  | (p, o) :: l => run_operation p o;; run_operations l
  end.

(** Whether an instance holds its value. *)
Definition evaluated (o : object) : bool :=
  match o with
  | NotLazy_object _ => true
  | VariantLazy_object s => holds_alternative_value s
  end.

(** The class an instance was constructed as. *)
Inductive class := NotLazy_class | VariantLazy_class.

Definition dynamic_type (o : object) : class :=
  match o with
  | NotLazy_object _ => NotLazy_class
  | VariantLazy_object _ => VariantLazy_class
  end.

(** The machine after [storage = s] in the instance at [this]. *)
Definition assigned (this : loc) (s : variant) (m : machine) : machine :=
  Machine (world m) (<[this := VariantLazy_object s]> (heap m)) (invoked m).

(** The machine after the producer of [this] has run and left [w]. *)
Definition produced (this : loc) (w : World) (m : machine) : machine :=
  Machine w (heap m) (this :: invoked m).

(** What [storage = value] leaves in an instance. *)
Definition reassigned (o : object) (v : value_type) : object :=
  match o with
  | NotLazy_object _ => NotLazy_object v
  | VariantLazy_object _ => VariantLazy_object (holds_value v)
  end.

(** The public members of [SharedLazy], with its copy constructor. *)
Inductive handle_operation :=
| h_star
| h_get_value
| h_isEvaluated
| h_copy.

(** A member call on a handle; the result is the handle the program goes
    on with: the copy after a copy, the same handle otherwise. *)
Definition run_handle_operation (h : SharedLazy.t) (o : handle_operation)
  : M SharedLazy.t :=
  match o with
  | h_star => SharedLazy.operator_star h;; mret h
  | h_get_value => SharedLazy.get_value h;; mret h
  | h_isEvaluated => SharedLazy.isEvaluated h;; mret h
  | h_copy => mret (SharedLazy.copy h)
  end.

Fixpoint run_handle_operations (h : SharedLazy.t) (l : list handle_operation)
  : M SharedLazy.t :=
  match l with
  | [] => mret h
  | o :: l => h' ← run_handle_operation h o; run_handle_operations h' l
  end.
End Client.

(** ** The programs of [test/tests.cpp] *)

Module Tests.
(** [int] values, an [int counter] as the world, one exception. *)
#[export] Instance int_counter : Template :=
  {| value_type := Z; World := Z; Raised := unit |}.

(** [static int build_int() { return 3; }]. *)
Definition build_int : evaluator_type := λ w, (w, returned 3%Z).

(** [[&counter]() { return ++counter; }]. *)
Definition increment : evaluator_type := λ counter,
  ((counter + 1)%Z, returned (counter + 1)%Z).

(** A producer that counts its calls and throws in the first one (the
    tests have no failing producer). *)
Definition failure : exn := raised ().

Definition fail_once : evaluator_type := λ counter,
  ((counter + 1)%Z,
   if decide (counter = 0%Z) then thrown failure else returned counter).

(** The state a test starts in: [counter = 0] and no instance. *)
Definition start : machine := Machine 0%Z ∅ [].

(** Reading [counter]. *)
Definition counter : M Z := λ m, Returned (world m) m.

(** [TEST(NotLazy, BasicTests)]: the values its assertions compare. *)
Definition NotLazy_BasicTests : M (Z * bool * Z) :=
  myLazyInt ← NotLazy.ctor 3%Z;
  a ← LazyConcept.operator_star myLazyInt;
  b ← LazyConcept.isEvaluated myLazyInt;
  LazyConcept.operator_assign myLazyInt 5%Z;;
  c ← LazyConcept.operator_star myLazyInt;
  mret (a, b, c).

(** [TEST(VariantLazy, LazyTests)]. *)
Definition VariantLazy_LazyTests : M (bool * Z * bool * bool * Z) :=
  myLazyInt ← VariantLazy.ctor build_int;
  a ← LazyConcept.isEvaluated myLazyInt;
  b ← LazyConcept.operator_star myLazyInt;
  c ← LazyConcept.isEvaluated myLazyInt;
  copy ← VariantLazy.copy_ctor myLazyInt;
  d ← LazyConcept.isEvaluated copy;
  LazyConcept.operator_assign copy 5%Z;;
  e ← LazyConcept.operator_star copy;
  mret (a, b, c, d, e).

(** [TEST(VariantLazy, EnsureObjectIsEvaluatedOnce)]. *)
Definition VariantLazy_EnsureObjectIsEvaluatedOnce
  : M (Z * Z * Z * Z * Z * Z) :=
  c0 ← counter;
  lazy ← VariantLazy.ctor increment;
  c1 ← counter;
  v1 ← LazyConcept.get_value lazy;
  c2 ← counter;
  v2 ← LazyConcept.get_value lazy;
  c3 ← counter;
  mret (c0, c1, v1, c2, v2, c3).

(** [TEST(LazyWrapper, Constructor)]. *)
Definition LazyWrapper_Constructor
  : M (bool * bool * Z * bool * bool * bool * Z * bool) :=
  ptr ← make_shared_VariantLazy build_int;
  let myNonLazyInt := SharedLazy.ctor ptr in
  let copy1 := SharedLazy.copy myNonLazyInt in
  a ← SharedLazy.isEvaluated copy1;
  b ← SharedLazy.isEvaluated myNonLazyInt;
  c ← SharedLazy.operator_star myNonLazyInt;
  d ← SharedLazy.isEvaluated myNonLazyInt;
  e ← SharedLazy.isEvaluated copy1;
  let copy2 := SharedLazy.copy myNonLazyInt in
  f ← SharedLazy.isEvaluated copy2;
  g ← SharedLazy.operator_star copy2;
  h ← SharedLazy.isEvaluated copy2;
  mret (a, b, c, d, e, f, g, h).

(** The value a computation returns. *)
Definition value_of {A} (r : result A) : option A :=
  match r with
  | Returned a _ => Some a
  | _ => None
  end.

(** Machines for the examples: one instance, at address 1. *)
Definition lazy : loc := 1%positive.

Definition holding (o : object) : machine := Machine 0%Z {[lazy := o]} [].

Definition unevaluated (f : evaluator_type) : machine :=
  holding (VariantLazy_object (holds_evaluator f)).

Definition cached (v : Z) : machine :=
  holding (VariantLazy_object (holds_value v)).
End Tests.

(** ** How the members run *)

Section Run.
Context `{Template}.
Implicit Types (m : machine) (this p q : loc) (o : object) (s : variant)
  (v : value_type) (f : evaluator_type).

Lemma bind_run {A B} (c : M A) (k : A → M B) m :
  (c ≫= k) m
  = match c m with
    | Returned a m' => k a m'
    | Thrown x m' => Thrown x m'
    | Undefined => Undefined
    end.
Proof. reflexivity. Qed.

Lemma ret_bind_run {A B} (a : A) (k : A → M B) m : (mret a ≫= k) m = k a m.
Proof. reflexivity. Qed.

Lemma load_run p o m : heap m !! p = Some o → load p m = Returned o m.
Proof. intros Ho. unfold load. by rewrite Ho. Qed.

Lemma load_dangling p m : heap m !! p = None → load p m = Undefined.
Proof. intros Ho. unfold load. by rewrite Ho. Qed.

Lemma store_run p o o' m :
  heap m !! p = Some o →
  store p o' m
  = Returned tt (Machine (world m) (<[p := o']> (heap m)) (invoked m)).
Proof. intros Ho. unfold store. by rewrite Ho. Qed.

Lemma VariantLazy_storage_run this s m :
  heap m !! this = Some (VariantLazy_object s) →
  VariantLazy.storage this m = Returned s m.
Proof.
  intros Hs. unfold VariantLazy.storage.
  by rewrite bind_run, (load_run _ _ _ Hs).
Qed.

Lemma VariantLazy_isEvaluated_run this s m :
  heap m !! this = Some (VariantLazy_object s) →
  VariantLazy.isEvaluated this m = Returned (holds_alternative_value s) m.
Proof.
  intros Hs. unfold VariantLazy.isEvaluated.
  by rewrite bind_run, (VariantLazy_storage_run _ _ _ Hs).
Qed.

Lemma VariantLazy_set_storage_run this s s' m :
  heap m !! this = Some (VariantLazy_object s) →
  VariantLazy.set_storage this s' m = Returned tt (assigned this s' m).
Proof.
  intros Hs. unfold VariantLazy.set_storage.
  rewrite bind_run, (VariantLazy_storage_run _ _ _ Hs).
  apply (store_run _ _ _ _ Hs).
Qed.

Lemma assigned_lookup this s m :
  heap (assigned this s m) !! this = Some (VariantLazy_object s).
Proof. apply lookup_insert_eq. Qed.

Lemma assigned_lookup_ne this q s m :
  q ≠ this → heap (assigned this s m) !! q = heap m !! q.
Proof. intros Hq. by apply lookup_insert_ne. Qed.

Lemma call_run this f m :
  call this f m
  = match (f (world m)).2 with
    | returned v => Returned v (produced this (f (world m)).1 m)
    | thrown x => Thrown x (produced this (f (world m)).1 m)
    end.
Proof. unfold call. by destruct (f (world m)) as [w []]. Qed.

(** An evaluated instance is read without any effect. *)
Lemma VariantLazy_do_deref_value this v m :
  heap m !! this = Some (VariantLazy_object (holds_value v)) →
  VariantLazy.do_deref this m = Returned v m.
Proof.
  intros Hs. unfold VariantLazy.do_deref.
  rewrite bind_run, (VariantLazy_isEvaluated_run _ _ _ Hs).
  cbn [holds_alternative_value negb].
  rewrite bind_run. cbn [mret M_ret].
  by rewrite bind_run, (VariantLazy_storage_run _ _ _ Hs).
Qed.

(** The first read calls the producer and caches what it returns. *)
Lemma VariantLazy_do_deref_returned this f w v m :
  heap m !! this = Some (VariantLazy_object (holds_evaluator f)) →
  f (world m) = (w, returned v) →
  VariantLazy.do_deref this m
  = Returned v (assigned this (holds_value v) (produced this w m)).
Proof.
  intros Hs Hf. unfold VariantLazy.do_deref.
  rewrite bind_run, (VariantLazy_isEvaluated_run _ _ _ Hs).
  cbn [holds_alternative_value negb].
  rewrite !bind_run, (VariantLazy_storage_run _ _ _ Hs).
  cbn [get_evaluator_type]. rewrite ret_bind_run, bind_run, call_run, Hf.
  cbn [fst snd].
  rewrite (VariantLazy_set_storage_run this (holds_evaluator f)) by done.
  by rewrite bind_run, (VariantLazy_storage_run _ _ _ (assigned_lookup _ _ _)).
Qed.

(** A producer that throws leaves the instance as it was. *)
Lemma VariantLazy_do_deref_thrown this f w x m :
  heap m !! this = Some (VariantLazy_object (holds_evaluator f)) →
  f (world m) = (w, thrown x) →
  VariantLazy.do_deref this m = Thrown x (produced this w m).
Proof.
  intros Hs Hf. unfold VariantLazy.do_deref.
  rewrite bind_run, (VariantLazy_isEvaluated_run _ _ _ Hs).
  cbn [holds_alternative_value negb].
  rewrite !bind_run, (VariantLazy_storage_run _ _ _ Hs).
  cbn [get_evaluator_type]. by rewrite ret_bind_run, bind_run, call_run, Hf.
Qed.

Lemma VariantLazy_do_reassign_run this s v m :
  heap m !! this = Some (VariantLazy_object s) →
  VariantLazy.do_reassign this v m
  = Returned tt (assigned this (holds_value v) m).
Proof. apply VariantLazy_set_storage_run. Qed.

Lemma NotLazy_storage_run this v m :
  heap m !! this = Some (NotLazy_object v) →
  NotLazy.storage this m = Returned v m.
Proof.
  intros Hs. unfold NotLazy.storage. by rewrite bind_run, (load_run _ _ _ Hs).
Qed.

Lemma NotLazy_do_reassign_run this v v' m :
  heap m !! this = Some (NotLazy_object v) →
  NotLazy.do_reassign this v' m
  = Returned tt
      (Machine (world m) (<[this := NotLazy_object v']> (heap m)) (invoked m)).
Proof.
  intros Hs. unfold NotLazy.do_reassign, NotLazy.set_storage.
  by rewrite bind_run, (NotLazy_storage_run _ _ _ Hs), (store_run _ _ _ _ Hs).
Qed.

(** *** Through the interface *)

Lemma LazyConcept_isEvaluated_run this o m :
  heap m !! this = Some o →
  LazyConcept.isEvaluated this m = Returned (evaluated o) m.
Proof.
  intros Ho. unfold LazyConcept.isEvaluated.
  rewrite bind_run, (load_run _ _ _ Ho). destruct o as [v|s]; [done|].
  apply (VariantLazy_isEvaluated_run _ _ _ Ho).
Qed.

Lemma LazyConcept_do_deref_NotLazy this v m :
  heap m !! this = Some (NotLazy_object v) →
  LazyConcept.do_deref this m = Returned v m.
Proof.
  intros Ho. unfold LazyConcept.do_deref.
  rewrite bind_run, (load_run _ _ _ Ho). apply (NotLazy_storage_run _ _ _ Ho).
Qed.

Lemma LazyConcept_do_deref_VariantLazy this s m :
  heap m !! this = Some (VariantLazy_object s) →
  LazyConcept.do_deref this m = VariantLazy.do_deref this m.
Proof.
  intros Ho. unfold LazyConcept.do_deref.
  by rewrite bind_run, (load_run _ _ _ Ho).
Qed.

Lemma LazyConcept_do_deref_value this v m :
  heap m !! this = Some (VariantLazy_object (holds_value v)) →
  LazyConcept.do_deref this m = Returned v m.
Proof.
  intros Ho. rewrite (LazyConcept_do_deref_VariantLazy _ _ _ Ho).
  by apply VariantLazy_do_deref_value.
Qed.

Lemma LazyConcept_do_deref_evaluator this f m :
  heap m !! this = Some (VariantLazy_object (holds_evaluator f)) →
  LazyConcept.do_deref this m
  = match (f (world m)).2 with
    | returned v =>
        Returned v
          (assigned this (holds_value v) (produced this (f (world m)).1 m))
    | thrown x => Thrown x (produced this (f (world m)).1 m)
    end.
Proof.
  intros Ho. rewrite (LazyConcept_do_deref_VariantLazy _ _ _ Ho).
  destruct (f (world m)) as [w [v|x]] eqn:Hf; cbn [fst snd].
  - by apply (VariantLazy_do_deref_returned _ f).
  - by apply (VariantLazy_do_deref_thrown _ f).
Qed.

Lemma LazyConcept_do_reassign_run this o v m :
  heap m !! this = Some o →
  LazyConcept.do_reassign this v m
  = Returned tt
      (Machine (world m) (<[this := reassigned o v]> (heap m)) (invoked m)).
Proof.
  intros Ho. unfold LazyConcept.do_reassign.
  rewrite bind_run, (load_run _ _ _ Ho). destruct o as [v'|s]; cbn [reassigned].
  - by apply (NotLazy_do_reassign_run _ v').
  - by apply (VariantLazy_do_reassign_run _ s).
Qed.

Lemma perform_do_deref this a : perform this a = LazyConcept.do_deref this.
Proof. by destruct a. Qed.

(** A member call through a dangling pointer. *)
Lemma run_operation_dangling this op m :
  heap m !! this = None → run_operation this op m = Undefined.
Proof.
  intros Ho. destruct op; cbn [run_operation];
    unfold LazyConcept.operator_star, LazyConcept.get_value,
      LazyConcept.operator_assign, LazyConcept.do_deref,
      LazyConcept.isEvaluated, LazyConcept.do_reassign;
    by rewrite !bind_run, (load_dangling _ _ Ho).
Qed.

(** What one member call does to the machine, by the instance it is
    called on. *)
Lemma run_operation_cases this o op m :
  heap m !! this = Some o →
  run_operation this op m = Returned tt m
  ∨ (∃ v, op = op_assign v ∧
       run_operation this op m
       = Returned tt
           (Machine (world m) (<[this := reassigned o v]> (heap m))
              (invoked m)))
  ∨ (∃ f, o = VariantLazy_object (holds_evaluator f) ∧
       match (f (world m)).2 with
       | returned v =>
           run_operation this op m
           = Returned tt
               (assigned this (holds_value v) (produced this (f (world m)).1 m))
       | thrown x =>
           run_operation this op m = Thrown x (produced this (f (world m)).1 m)
       end).
Proof.
  intros Ho.
  assert (Hderef : ∀ k : value_type → M unit,
    (∀ v m', k v m' = Returned tt m') →
    (LazyConcept.do_deref this ≫= k) m = Returned tt m
    ∨ (∃ f, o = VariantLazy_object (holds_evaluator f) ∧
         match (f (world m)).2 with
         | returned v =>
             (LazyConcept.do_deref this ≫= k) m
             = Returned tt
                 (assigned this (holds_value v)
                    (produced this (f (world m)).1 m))
         | thrown x =>
             (LazyConcept.do_deref this ≫= k) m
             = Thrown x (produced this (f (world m)).1 m)
         end)).
  { intros k Hk. rewrite bind_run. destruct o as [v|[v|f]].
    - left. by rewrite (LazyConcept_do_deref_NotLazy _ _ _ Ho).
    - left. by rewrite (LazyConcept_do_deref_value _ _ _ Ho).
    - right. exists f. split; [done|].
      rewrite (LazyConcept_do_deref_evaluator _ _ _ Ho).
      by destruct (f (world m)).2. }
  destruct op as [| | |v]; cbn [run_operation].
  - destruct (Hderef (λ _, mret tt)) as [?|?]; auto.
  - destruct (Hderef (λ _, mret tt)) as [?|?]; auto.
  - left. by rewrite bind_run, (LazyConcept_isEvaluated_run _ _ _ Ho).
  - right; left. exists v. split; [done|].
    by apply LazyConcept_do_reassign_run.
Qed.
End Run.

(** ** What a program can and cannot change *)

Section Invariants.
Context `{Template}.
Implicit Types (m : machine) (this p q : loc) (o : object) (s : variant)
  (v : value_type) (f : evaluator_type) (op : operation)
  (prog : list (loc * operation)).

Lemma invocations_produced_eq this w m :
  invocations this (produced this w m) = S (invocations this m).
Proof.
  unfold invocations, produced. cbn [invoked].
  by rewrite filter_cons_True.
Qed.

Lemma invocations_produced_ne this q w m :
  q ≠ this → invocations q (produced this w m) = invocations q m.
Proof.
  intros Hq. unfold invocations, produced. cbn [invoked].
  by rewrite filter_cons_False by (intros ->; done).
Qed.

(** A member call changes no other instance. *)
Lemma run_operation_frame this q op m m' :
  final (run_operation this op m) = Some m' →
  q ≠ this → heap m' !! q = heap m !! q.
Proof.
  intros Hm' Hq. destruct (heap m !! this) as [o|] eqn:Ho.
  - destruct (run_operation_cases this o op m Ho)
      as [E|[(v & _ & E)|(f & _ & E)]].
    + rewrite E in Hm'. by simplify_eq/=.
    + rewrite E in Hm'. simplify_eq/=. by apply lookup_insert_ne.
    + destruct (f (world m)).2; rewrite E in Hm'; simplify_eq/=;
        [by apply lookup_insert_ne | done].
  - by rewrite (run_operation_dangling _ _ _ Ho) in Hm'.
Qed.

(** A member call on an evaluated instance returns, calls no producer and
    leaves the instance evaluated. *)
Lemma run_operation_evaluated_self this o op m :
  heap m !! this = Some o → evaluated o = true →
  ∃ m' o', run_operation this op m = Returned tt m'
    ∧ world m' = world m ∧ invoked m' = invoked m
    ∧ heap m' !! this = Some o' ∧ evaluated o' = true
    ∧ dynamic_type o' = dynamic_type o
    ∧ ((∀ v, op ≠ op_assign v) → m' = m).
Proof.
  intros Ho He.
  destruct (run_operation_cases this o op m Ho)
    as [E|[(v & -> & E)|(f & -> & E)]].
  - exists m, o. by rewrite E.
  - rewrite E. eexists _, (reassigned o v). split; [done|].
    cbn [world invoked heap]. rewrite lookup_insert_eq.
    repeat split; try by destruct o.
    intros Hv. by destruct (Hv v).
  - done.
Qed.

(** Whatever a member call does, an evaluated instance stays evaluated, of
    the same class, and its producer is not called. *)
Lemma run_operation_evaluated this q o op m m' :
  heap m !! q = Some o → evaluated o = true →
  final (run_operation this op m) = Some m' →
  ∃ o', heap m' !! q = Some o' ∧ evaluated o' = true
    ∧ dynamic_type o' = dynamic_type o
    ∧ invocations q m' = invocations q m.
Proof.
  intros Ho He Hm'. destruct (decide (q = this)) as [->|Hq].
  - destruct (run_operation_evaluated_self this o op m Ho He)
      as (m1 & o' & E & _ & Hi & Ho' & He' & Hc & _).
    rewrite E in Hm'. simplify_eq/=. exists o'.
    unfold invocations. by rewrite Hi.
  - exists o. rewrite (run_operation_frame _ _ _ _ _ Hm' Hq).
    repeat split; try done.
    destruct (heap m !! this) as [po|] eqn:Hpo;
      [|by rewrite (run_operation_dangling _ _ _ Hpo) in Hm'].
    destruct (run_operation_cases this po op m Hpo)
      as [E|[(v & _ & E)|(f & _ & E)]].
    + rewrite E in Hm'. by simplify_eq/=.
    + rewrite E in Hm'. by simplify_eq/=.
    + destruct (f (world m)).2; rewrite E in Hm'; simplify_eq/=.
      * unfold assigned, invocations. cbn [invoked].
        by apply (invocations_produced_ne this q).
      * by apply invocations_produced_ne.
Qed.

Lemma run_operations_cons p op prog m :
  run_operations ((p, op) :: prog) m
  = match run_operation p op m with
    | Returned _ m' => run_operations prog m'
    | Thrown x m' => Thrown x m'
    | Undefined => Undefined
    end.
Proof. reflexivity. Qed.

Lemma run_operations_evaluated q o prog m m' :
  heap m !! q = Some o → evaluated o = true →
  final (run_operations prog m) = Some m' →
  ∃ o', heap m' !! q = Some o' ∧ evaluated o' = true
    ∧ dynamic_type o' = dynamic_type o
    ∧ invocations q m' = invocations q m.
Proof.
  revert o m. induction prog as [|[p op] prog IH]; intros o m Ho He Hm'.
  - simplify_eq/=. by exists o.
  - rewrite run_operations_cons in Hm'.
    destruct (run_operation p op m) as [[] m1|x m1|] eqn:E; [| |done].
    + destruct (run_operation_evaluated p q o op m m1 Ho He) as
        (o1 & Ho1 & He1 & Hc1 & Hi1); [by rewrite E|].
      destruct (IH o1 m1 Ho1 He1 Hm') as (o' & ? & ? & ? & ?).
      exists o'. repeat split; try done; congruence.
    + apply (run_operation_evaluated p q o op m m'); try done.
      by rewrite E.
Qed.

(** A program that calls no member of [q] does not change [q]. *)
Lemma run_operations_frame q prog m m' :
  Forall (λ c, c.1 ≠ q) prog →
  final (run_operations prog m) = Some m' →
  heap m' !! q = heap m !! q.
Proof.
  intros Hprog. revert m.
  induction Hprog as [|[p op] prog Hp _ IH]; intros m Hm'.
  - by simplify_eq/=.
  - rewrite run_operations_cons in Hm'. cbn [fst] in Hp.
    destruct (run_operation p op m) as [[] m1|x m1|] eqn:E; [| |done].
    + rewrite (IH m1 Hm').
      apply (run_operation_frame p q op); [by rewrite E|done].
    + apply (run_operation_frame p q op); [by rewrite E|done].
Qed.

(** A program on one evaluated instance returns and calls no producer. *)
Lemma run_operations_evaluated_self this o (ops : list operation) m :
  heap m !! this = Some o → evaluated o = true →
  ∃ m', run_operations (pair this <$> ops) m = Returned tt m'
    ∧ world m' = world m ∧ invoked m' = invoked m.
Proof.
  revert o m. induction ops as [|op ops IH]; intros o m Ho He.
  - by exists m.
  - rewrite fmap_cons, run_operations_cons.
    destruct (run_operation_evaluated_self this o op m Ho He)
      as (m1 & o1 & -> & Hw1 & Hi1 & Ho1 & He1 & _).
    destruct (IH o1 m1 Ho1 He1) as (m' & -> & Hw & Hi).
    exists m'. repeat split; congruence.
Qed.

Lemma perform_all_value this v (l : list access) m :
  heap m !! this = Some (VariantLazy_object (holds_value v)) →
  perform_all this l m = Returned (replicate (length l) v) m.
Proof.
  intros Hv. induction l as [|a l IH]; [done|].
  cbn [perform_all length replicate].
  rewrite bind_run, perform_do_deref, (LazyConcept_do_deref_value _ _ _ Hv).
  by rewrite bind_run, IH.
Qed.
End Invariants.

(** ** The documented behaviour of the strategies *)

Section Strategies.
Context `{Template}.
Implicit Types (m : machine) (this p q : loc) (o : object) (s : variant)
  (v : value_type) (f : evaluator_type) (op : operation)
  (prog : list (loc * operation)).

(** C1. At-most-once evaluation: when the producer of an unevaluated
    [VariantLazy] returns [v], any [N ≥ 1] reads of the instance, through
    [get_value] or [operator*], all return [v]; the producer has been
    called exactly once (the world is what that one call left, the log has
    one more entry), the instance caches [v], and every further read
    returns [v] again and changes nothing. *)
Theorem evaluated_exactly_once this f w v (accs : list access) m :
  heap m !! this = Some (VariantLazy_object (holds_evaluator f)) →
  f (world m) = (w, returned v) →
  1 ≤ length accs →
  ∃ m', perform_all this accs m = Returned (replicate (length accs) v) m'
    ∧ world m' = w
    ∧ invoked m' = this :: invoked m
    ∧ invocations this m' = S (invocations this m)
    ∧ heap m' = <[this := VariantLazy_object (holds_value v)]> (heap m)
    ∧ ∀ more : list access,
        perform_all this more m' = Returned (replicate (length more) v) m'.
Proof.
  intros Hf Hw Hn. destruct accs as [|a accs]; [cbn in Hn; lia|].
  set (m' := assigned this (holds_value v) (produced this w m)).
  assert (Hv : heap m' !! this = Some (VariantLazy_object (holds_value v)))
    by apply assigned_lookup.
  exists m'. split.
  - cbn [perform_all length replicate].
    rewrite bind_run, perform_do_deref.
    rewrite (LazyConcept_do_deref_evaluator _ _ _ Hf).
    rewrite Hw. cbn [fst snd]. fold m'.
    by rewrite bind_run, (perform_all_value _ _ _ _ Hv).
  - repeat split; try done.
    + apply (invocations_produced_eq this w m).
    + intros more. by apply perform_all_value.
Qed.

(** C2. A producer that throws: the read throws the producer's exception,
    the instance still holds the producer ([isEvaluated] is false), and
    the next read calls the producer again, on the world the failed call
    left. *)
Theorem producer_failure_propagates this f w x (a : access) m :
  heap m !! this = Some (VariantLazy_object (holds_evaluator f)) →
  f (world m) = (w, thrown x) →
  ∃ m', perform this a m = Thrown x m'
    ∧ heap m' = heap m
    ∧ LazyConcept.isEvaluated this m' = Returned false m'
    ∧ invocations this m' = S (invocations this m)
    ∧ ∀ a' : access,
        invocations this (produced this (f w).1 m') = S (S (invocations this m))
        ∧ perform this a' m'
          = match (f w).2 with
            | returned v =>
                Returned v
                  (assigned this (holds_value v) (produced this (f w).1 m'))
            | thrown y => Thrown y (produced this (f w).1 m')
            end.
Proof.
  intros Hf Hw. exists (produced this w m).
  assert (Hf' : heap (produced this w m) !! this
                = Some (VariantLazy_object (holds_evaluator f))) by done.
  split; [|repeat split].
  - rewrite perform_do_deref, (LazyConcept_do_deref_evaluator _ _ _ Hf).
    by rewrite Hw.
  - apply (LazyConcept_isEvaluated_run _ _ _ Hf').
  - apply invocations_produced_eq.
  - by rewrite !invocations_produced_eq.
  - rewrite perform_do_deref. apply (LazyConcept_do_deref_evaluator _ _ _ Hf').
Qed.

(** C4. Reassignment: whatever the instance and its state, [operator=]
    returns and calls no producer; afterwards [isEvaluated] is true, every
    read returns the assigned value and changes nothing, and no program
    ever calls the producer the instance may have held. *)
Theorem reassign_overwrites this o v m :
  heap m !! this = Some o →
  ∃ m', LazyConcept.operator_assign this v m = Returned tt m'
    ∧ world m' = world m
    ∧ invoked m' = invoked m
    ∧ heap m' !! this = Some (reassigned o v)
    ∧ LazyConcept.isEvaluated this m' = Returned true m'
    ∧ (∀ a : access, perform this a m' = Returned v m')
    ∧ ∀ prog m'', final (run_operations prog m') = Some m'' →
        invocations this m'' = invocations this m.
Proof.
  intros Ho. eexists. split; [by apply LazyConcept_do_reassign_run|].
  set (m' := Machine _ _ _).
  assert (Ho' : heap m' !! this = Some (reassigned o v))
    by apply lookup_insert_eq.
  assert (He : evaluated (reassigned o v) = true) by by destruct o.
  repeat split; try done.
  - by rewrite (LazyConcept_isEvaluated_run _ _ _ Ho'), He.
  - intros a. rewrite perform_do_deref. destruct o; cbn [reassigned] in Ho'.
    + by apply LazyConcept_do_deref_NotLazy.
    + by apply LazyConcept_do_deref_value.
  - intros prog m'' Hm''.
    by destruct (run_operations_evaluated this _ prog m' m'' Ho' He Hm'')
      as (_ & _ & _ & _ & ->).
Qed.

(** C5. Evaluated is terminal: once a [VariantLazy] holds a value, after
    any program of reads, assignments and [isEvaluated] calls, on this and
    on other instances, it still holds a value and [isEvaluated] is true;
    a program on the instance alone always runs to its end. *)
Theorem evaluated_is_terminal this v m :
  heap m !! this = Some (VariantLazy_object (holds_value v)) →
  (∀ prog m', final (run_operations prog m) = Some m' →
     (∃ v', heap m' !! this = Some (VariantLazy_object (holds_value v')))
     ∧ LazyConcept.isEvaluated this m' = Returned true m')
  ∧ ∀ ops : list operation,
      ∃ m', run_operations (pair this <$> ops) m = Returned tt m'.
Proof.
  intros Hv. split.
  - intros prog m' Hm'.
    destruct (run_operations_evaluated this _ prog m m' Hv eq_refl Hm')
      as (o' & Ho' & He' & Hc' & _).
    rewrite (LazyConcept_isEvaluated_run _ _ _ Ho'), He'.
    destruct o' as [|[v'|]]; try done. split; [by exists v'|done].
  - intros ops.
    destruct (run_operations_evaluated_self this _ ops m Hv eq_refl)
      as (m' & E & _).
    by exists m'.
Qed.

(** C6. [isEvaluated] is a pure query: on any instance in any state it
    returns whether the instance holds its value and leaves the whole
    machine as it was (no producer call, same storage), so whatever runs
    after it runs as it would have without it; the same through a
    handle. *)
Theorem isEvaluated_is_pure this o m :
  heap m !! this = Some o →
  LazyConcept.isEvaluated this m = Returned (evaluated o) m
  ∧ (∀ (A : Type) (k : M A), (LazyConcept.isEvaluated this;; k) m = k m)
  ∧ ∀ h, SharedLazy.pimpl h = Some this →
      SharedLazy.isEvaluated h m = Returned (evaluated o) m.
Proof.
  intros Ho. pose proof (LazyConcept_isEvaluated_run _ _ _ Ho) as E.
  repeat split; [done| |].
  - intros A k. by rewrite bind_run, E.
  - intros h Hh. unfold SharedLazy.isEvaluated, SharedLazy.arrow.
    by rewrite Hh, ret_bind_run.
Qed.

(** C7. Construction defers: the constructor of [VariantLazy] stores the
    producer in a new instance without calling it (world and log are
    unchanged), [isEvaluated] is false, and the first read is what calls
    the producer. *)
Theorem construction_defers f m :
  ∃ this m', VariantLazy.ctor f m = Returned this m'
    ∧ heap m !! this = None
    ∧ heap m' = <[this := VariantLazy_object (holds_evaluator f)]> (heap m)
    ∧ world m' = world m
    ∧ invoked m' = invoked m
    ∧ LazyConcept.isEvaluated this m' = Returned false m'
    ∧ ∀ a : access,
        perform this a m'
        = match (f (world m)).2 with
          | returned v =>
              Returned v
                (assigned this (holds_value v)
                   (produced this (f (world m)).1 m'))
          | thrown x => Thrown x (produced this (f (world m)).1 m')
          end.
Proof.
  eexists _, _. split; [reflexivity|].
  set (this := fresh _). set (m' := Machine _ _ _).
  assert (Hf : heap m' !! this = Some (VariantLazy_object (holds_evaluator f)))
    by apply lookup_insert_eq.
  repeat split.
  - apply not_elem_of_dom, is_fresh.
  - apply (LazyConcept_isEvaluated_run _ _ _ Hf).
  - intros a. rewrite perform_do_deref.
    apply (LazyConcept_do_deref_evaluator _ _ _ Hf).
Qed.

(** C8. [NotLazy] is always evaluated: right after construction from [v],
    [isEvaluated] is true and every read returns [v] and changes nothing;
    after any program the instance is still a [NotLazy], [isEvaluated] is
    true and a read returns the stored value and changes nothing; a
    program on the instance alone always returns, with the world and the
    log of producer calls as they were. *)
Theorem NotLazy_always_evaluated v m :
  ∃ this m', NotLazy.ctor v m = Returned this m'
    ∧ heap m !! this = None
    ∧ world m' = world m
    ∧ invoked m' = invoked m
    ∧ LazyConcept.isEvaluated this m' = Returned true m'
    ∧ (∀ a : access, perform this a m' = Returned v m')
    ∧ (∀ prog m'', final (run_operations prog m') = Some m'' →
         ∃ v', heap m'' !! this = Some (NotLazy_object v')
           ∧ LazyConcept.isEvaluated this m'' = Returned true m''
           ∧ ∀ a : access, perform this a m'' = Returned v' m'')
    ∧ ∀ ops : list operation,
        ∃ m'', run_operations (pair this <$> ops) m' = Returned tt m''
          ∧ world m'' = world m
          ∧ invoked m'' = invoked m.
Proof.
  eexists _, _. split; [reflexivity|].
  set (this := fresh _). set (m' := Machine _ _ _).
  assert (Hv : heap m' !! this = Some (NotLazy_object v))
    by apply lookup_insert_eq.
  repeat split.
  - apply not_elem_of_dom, is_fresh.
  - apply (LazyConcept_isEvaluated_run _ _ _ Hv).
  - intros a. rewrite perform_do_deref. by apply LazyConcept_do_deref_NotLazy.
  - intros prog m'' Hm''.
    destruct (run_operations_evaluated this _ prog m' m'' Hv eq_refl Hm'')
      as (o' & Ho' & He' & Hc' & _).
    destruct o' as [v'|]; [|done]. exists v'. repeat split; [done| |].
    + apply (LazyConcept_isEvaluated_run _ _ _ Ho').
    + intros a. rewrite perform_do_deref. by apply LazyConcept_do_deref_NotLazy.
  - intros ops.
    destruct (run_operations_evaluated_self this _ ops m' Hv eq_refl)
      as (m'' & E & Hw & Hi).
    by exists m''.
Qed.
End Strategies.

(** ** Shared handles and copies *)

Section Sharing.
Context `{Template}.
Implicit Types (m : machine) (this p q : loc) (o : object) (s : variant)
  (v : value_type) (f : evaluator_type) (h : SharedLazy.t)
  (hop : handle_operation).

Lemma SharedLazy_operator_star_run h p m :
  SharedLazy.pimpl h = Some p →
  SharedLazy.operator_star h m = LazyConcept.do_deref p m.
Proof.
  intros Hp. unfold SharedLazy.operator_star, SharedLazy.arrow.
  by rewrite Hp, ret_bind_run.
Qed.

Lemma SharedLazy_get_value_run h p m :
  SharedLazy.pimpl h = Some p →
  SharedLazy.get_value h m = LazyConcept.do_deref p m.
Proof.
  intros Hp. unfold SharedLazy.get_value, SharedLazy.arrow.
  by rewrite Hp, ret_bind_run.
Qed.

Lemma SharedLazy_isEvaluated_run h p o m :
  SharedLazy.pimpl h = Some p → heap m !! p = Some o →
  SharedLazy.isEvaluated h m = Returned (evaluated o) m.
Proof.
  intros Hp Ho. unfold SharedLazy.isEvaluated, SharedLazy.arrow.
  rewrite Hp, ret_bind_run. by apply LazyConcept_isEvaluated_run.
Qed.

Lemma SharedLazy_copy_eq h : SharedLazy.copy h = h.
Proof. by destruct h. Qed.

Lemma elem_of_both h h' : h' ∈ [h; h] → h' = h.
Proof.
  rewrite !elem_of_cons. intros [->|[->|Hnil]]; [done..|].
  by apply elem_of_nil in Hnil.
Qed.

(** What one member call on a handle does to the machine. *)
Lemma run_handle_operation_cases h p o hop m :
  SharedLazy.pimpl h = Some p → heap m !! p = Some o →
  run_handle_operation h hop m = Returned h m
  ∨ (∃ f, o = VariantLazy_object (holds_evaluator f) ∧
       match (f (world m)).2 with
       | returned v =>
           run_handle_operation h hop m
           = Returned h
               (assigned p (holds_value v) (produced p (f (world m)).1 m))
       | thrown x =>
           run_handle_operation h hop m
           = Thrown x (produced p (f (world m)).1 m)
       end).
Proof.
  intros Hp Ho.
  assert (Hderef :
    (LazyConcept.do_deref p ≫= λ _, mret h) m = Returned h m
    ∨ (∃ f, o = VariantLazy_object (holds_evaluator f) ∧
         match (f (world m)).2 with
         | returned v =>
             (LazyConcept.do_deref p ≫= λ _, mret h) m
             = Returned h
                 (assigned p (holds_value v) (produced p (f (world m)).1 m))
         | thrown x =>
             (LazyConcept.do_deref p ≫= λ _, mret h) m
             = Thrown x (produced p (f (world m)).1 m)
         end)).
  { rewrite bind_run. destruct o as [v|[v|f]].
    - left. by rewrite (LazyConcept_do_deref_NotLazy _ _ _ Ho).
    - left. by rewrite (LazyConcept_do_deref_value _ _ _ Ho).
    - right. exists f. split; [done|].
      rewrite (LazyConcept_do_deref_evaluator _ _ _ Ho).
      by destruct (f (world m)).2. }
  destruct hop; cbn [run_handle_operation].
  - rewrite bind_run, (SharedLazy_operator_star_run _ _ _ Hp).
    by rewrite bind_run in Hderef.
  - rewrite bind_run, (SharedLazy_get_value_run _ _ _ Hp).
    by rewrite bind_run in Hderef.
  - left. by rewrite bind_run, (SharedLazy_isEvaluated_run _ _ _ _ Hp Ho).
  - left. by rewrite SharedLazy_copy_eq.
Qed.

Lemma run_handle_operations_cons h hop (l : list handle_operation) m :
  run_handle_operations h (hop :: l) m
  = match run_handle_operation h hop m with
    | Returned h' m' => run_handle_operations h' l m'
    | Thrown x m' => Thrown x m'
    | Undefined => Undefined
    end.
Proof. reflexivity. Qed.

(** A program on a handle of an evaluated instance changes nothing. *)
Lemma run_handle_operations_evaluated h p o (l : list handle_operation) m :
  SharedLazy.pimpl h = Some p → heap m !! p = Some o → evaluated o = true →
  run_handle_operations h l m = Returned h m.
Proof.
  intros Hp Ho He. induction l as [|hop l IH]; [done|].
  rewrite run_handle_operations_cons.
  destruct (run_handle_operation_cases h p o hop m Hp Ho) as [->|(f & -> & _)];
    done.
Qed.

(** C9. A handle is read-only: whatever members ([operator*],
    [get_value], [isEvaluated], the copy constructor) a program calls on a
    handle and its copies, the heap ends as it began, or with the one
    change that the unevaluated instance behind the handle now caches the
    value its producer returned; behind a handle of an evaluated instance
    nothing changes at all. *)
Theorem SharedLazy_is_read_only h p o (l : list handle_operation) m :
  SharedLazy.pimpl h = Some p →
  heap m !! p = Some o →
  (∃ m', final (run_handle_operations h l m) = Some m'
     ∧ (heap m' = heap m
        ∨ ∃ f v, o = VariantLazy_object (holds_evaluator f)
            ∧ (f (world m)).2 = returned v
            ∧ heap m' = <[p := VariantLazy_object (holds_value v)]> (heap m)))
  ∧ (evaluated o = true → run_handle_operations h l m = Returned h m).
Proof.
  intros Hp Ho. split; [|by apply (run_handle_operations_evaluated h p)].
  induction l as [|hop l IH]; [exists m; by split; [|left]|].
  rewrite run_handle_operations_cons.
  destruct (run_handle_operation_cases h p o hop m Hp Ho) as [->|(f & -> & E)];
    [done|].
  destruct (f (world m)).2 as [v|x] eqn:Hf; rewrite E.
  - set (m1 := assigned p (holds_value v) (produced p (f (world m)).1 m)).
    rewrite (run_handle_operations_evaluated h p
               (VariantLazy_object (holds_value v)));
      [|done|apply assigned_lookup|done].
    exists m1. split; [done|]. right. by exists f, v.
  - eexists. split; [done|]. by left.
Qed.

(** C3. Copies of a handle share the cache: while the instance behind a
    handle is unevaluated, the handle and its copy both report so; when
    the producer returns [v], one read through either of them returns [v]
    with a single producer call, after which both report evaluated and a
    read through either returns [v] and changes nothing (no further
    producer call). *)
Theorem SharedLazy_copies_share_the_cache h p f w v m :
  SharedLazy.pimpl h = Some p →
  heap m !! p = Some (VariantLazy_object (holds_evaluator f)) →
  f (world m) = (w, returned v) →
  SharedLazy.isEvaluated h m = Returned false m
  ∧ SharedLazy.isEvaluated (SharedLazy.copy h) m = Returned false m
  ∧ ∀ first, first ∈ [h; SharedLazy.copy h] →
      ∃ m', SharedLazy.get_value first m = Returned v m'
        ∧ SharedLazy.operator_star first m = Returned v m'
        ∧ world m' = w
        ∧ invoked m' = p :: invoked m
        ∧ ∀ any, any ∈ [h; SharedLazy.copy h] →
            SharedLazy.isEvaluated any m' = Returned true m'
            ∧ SharedLazy.get_value any m' = Returned v m'
            ∧ SharedLazy.operator_star any m' = Returned v m'.
Proof.
  intros Hp Hf Hw. rewrite SharedLazy_copy_eq.
  pose proof (SharedLazy_isEvaluated_run _ _ _ _ Hp Hf) as E.
  repeat split; try done.
  intros first Hfirst.
  apply elem_of_both in Hfirst as ->.
  set (m' := assigned p (holds_value v) (produced p w m)).
  assert (Hv : heap m' !! p = Some (VariantLazy_object (holds_value v)))
    by apply assigned_lookup.
  exists m'.
  rewrite (SharedLazy_get_value_run _ _ _ Hp),
    (SharedLazy_operator_star_run _ _ _ Hp),
    (LazyConcept_do_deref_evaluator _ _ _ Hf), Hw.
  do 4 (split; [done|]).
  intros any Hany. apply elem_of_both in Hany as ->. repeat split.
  - apply (SharedLazy_isEvaluated_run _ _ _ _ Hp Hv).
  - rewrite (SharedLazy_get_value_run _ _ _ Hp).
    by apply LazyConcept_do_deref_value.
  - rewrite (SharedLazy_operator_star_run _ _ _ Hp).
    by apply LazyConcept_do_deref_value.
Qed.

(** C10. Copies of a [VariantLazy] are independent: the copy constructor
    makes a second instance with the same storage and calls no producer;
    a program that calls no member of the original leaves the original as
    it was, and likewise for the copy; and when the copied instance was
    unevaluated, a read of the original and a read of the copy call the
    producer once each, twice in all. *)
Theorem VariantLazy_copies_are_independent this s m :
  heap m !! this = Some (VariantLazy_object s) →
  ∃ copy m', VariantLazy.copy_ctor this m = Returned copy m'
    ∧ copy ≠ this
    ∧ heap m !! copy = None
    ∧ heap m' !! this = Some (VariantLazy_object s)
    ∧ heap m' !! copy = Some (VariantLazy_object s)
    ∧ world m' = world m
    ∧ invoked m' = invoked m
    ∧ (∀ prog m'', Forall (λ c, c.1 ≠ this) prog →
         final (run_operations prog m') = Some m'' →
         heap m'' !! this = Some (VariantLazy_object s))
    ∧ (∀ prog m'', Forall (λ c, c.1 ≠ copy) prog →
         final (run_operations prog m') = Some m'' →
         heap m'' !! copy = Some (VariantLazy_object s))
    ∧ ∀ f w1 v1 w2 v2 (a1 a2 : access),
        s = holds_evaluator f →
        f (world m) = (w1, returned v1) →
        f w1 = (w2, returned v2) →
        ∃ m1 m2, perform this a1 m' = Returned v1 m1
          ∧ perform copy a2 m1 = Returned v2 m2
          ∧ world m2 = w2
          ∧ invoked m2 = copy :: this :: invoked m
          ∧ heap m2 !! this = Some (VariantLazy_object (holds_value v1))
          ∧ heap m2 !! copy = Some (VariantLazy_object (holds_value v2)).
Proof.
  intros Hs. unfold VariantLazy.copy_ctor.
  rewrite bind_run, (VariantLazy_storage_run _ _ _ Hs). unfold alloc.
  set (copy := fresh _). set (m' := Machine _ _ _).
  assert (Hfresh : heap m !! copy = None) by apply not_elem_of_dom, is_fresh.
  assert (Hne : copy ≠ this) by congruence.
  assert (Hthis : heap m' !! this = Some (VariantLazy_object s))
    by by rewrite <- Hs; apply lookup_insert_ne.
  assert (Hcopy : heap m' !! copy = Some (VariantLazy_object s))
    by apply lookup_insert_eq.
  exists copy, m'. repeat split; try done.
  - intros prog m'' Hprog Hm''.
    by rewrite (run_operations_frame this _ _ _ Hprog Hm'').
  - intros prog m'' Hprog Hm''.
    by rewrite (run_operations_frame copy _ _ _ Hprog Hm'').
  - intros f w1 v1 w2 v2 a1 a2 -> Hw1 Hw2.
    set (m1 := assigned this (holds_value v1) (produced this w1 m')).
    set (m2 := assigned copy (holds_value v2) (produced copy w2 m1)).
    assert (Hcopy1 : heap m1 !! copy
                     = Some (VariantLazy_object (holds_evaluator f)))
      by by unfold m1; rewrite assigned_lookup_ne.
    exists m1, m2. repeat split.
    + rewrite perform_do_deref, (LazyConcept_do_deref_evaluator _ _ _ Hthis).
      change (world m') with (world m). by rewrite Hw1.
    + rewrite perform_do_deref, (LazyConcept_do_deref_evaluator _ _ _ Hcopy1).
      change (world m1) with w1. by rewrite Hw2.
    + unfold m2. rewrite assigned_lookup_ne by done. apply assigned_lookup.
    + apply assigned_lookup.
Qed.
End Sharing.

(** ** The tests, run *)

Section TestRuns.
Import Tests.

Example NotLazy_BasicTests_pass :
  value_of (NotLazy_BasicTests start) = Some (3, true, 5)%Z.
Proof. reflexivity. Qed.

Example VariantLazy_LazyTests_pass :
  value_of (VariantLazy_LazyTests start) = Some (false, 3, true, true, 5)%Z.
Proof. reflexivity. Qed.

Example VariantLazy_EnsureObjectIsEvaluatedOnce_pass :
  value_of (VariantLazy_EnsureObjectIsEvaluatedOnce start)
  = Some (0, 0, 1, 1, 1, 1)%Z.
Proof. reflexivity. Qed.

Example LazyWrapper_Constructor_pass :
  value_of (LazyWrapper_Constructor start)
  = Some (false, false, 3, true, true, true, 3, true)%Z.
Proof. reflexivity. Qed.
End TestRuns.

(** ** The theorems at the instances of the tests *)

Section Instances.
Import Tests.

(** Two reads of the counting producer: both return 1, one call. *)
Lemma evaluated_exactly_once_counter :
  ∃ m', perform_all lazy [by_get_value; by_get_value] (unevaluated increment)
        = Returned [1; 1]%Z m'
    ∧ world m' = 1%Z
    ∧ invoked m' = [lazy].
Proof.
  destruct (evaluated_exactly_once (H := int_counter) lazy increment 1%Z 1%Z
              [by_get_value; by_get_value] (unevaluated increment))
    as (m' & E & Hw & Hi & _);
    [reflexivity | reflexivity | apply le_S, le_n |].
  exists m'. repeat split; assumption.
Defined.

(** The failing producer: the read throws and the instance is as before. *)
Lemma producer_failure_propagates_fail_once :
  ∃ m', perform lazy by_get_value (unevaluated fail_once) = Thrown failure m'
    ∧ heap m' = heap (unevaluated fail_once)
    ∧ perform lazy by_get_value m'
      = Returned 1%Z
          (assigned lazy (holds_value 1%Z) (produced lazy 2%Z m')).
Proof.
  destruct (producer_failure_propagates (H := int_counter) lazy fail_once
              1%Z failure
              by_get_value (unevaluated fail_once))
    as (m' & E & Hh & _ & _ & Hretry); [reflexivity | reflexivity |].
  exists m'. repeat split; [assumption | assumption |].
  apply (Hretry by_get_value).
Defined.

(** A handle of [build_int] and its copy. *)
Lemma SharedLazy_copies_share_the_cache_build_int :
  SharedLazy.isEvaluated (SharedLazy.copy (SharedLazy.ctor (Some lazy)))
    (unevaluated build_int)
  = Returned false (unevaluated build_int).
Proof.
  destruct (SharedLazy_copies_share_the_cache (H := int_counter)
              (SharedLazy.ctor (Some lazy))
              lazy build_int 0%Z 3%Z (unevaluated build_int))
    as (_ & E & _); [reflexivity | reflexivity | reflexivity |].
  exact E.
Defined.

(** [reassign(5)] on an unevaluated [Deferred(build_int)]. *)
Lemma reassign_overwrites_build_int :
  ∃ m', LazyConcept.operator_assign lazy 5%Z (unevaluated build_int)
        = Returned tt m'
    ∧ LazyConcept.isEvaluated lazy m' = Returned true m'
    ∧ perform lazy by_get_value m' = Returned 5%Z m'.
Proof.
  destruct (reassign_overwrites (H := int_counter) lazy
              (VariantLazy_object (holds_evaluator build_int)) 5%Z
              (unevaluated build_int))
    as (m' & E & _ & _ & _ & He & Hv & _); [reflexivity |].
  exists m'. repeat split; [assumption | assumption | apply Hv].
Defined.

(** An evaluated instance, reassigned and read. *)
Lemma evaluated_is_terminal_three :
  ∃ m', run_operations (pair lazy <$> [op_assign 5%Z; op_star; op_isEvaluated])
          (cached 3%Z)
        = Returned tt m'.
Proof.
  destruct (evaluated_is_terminal (H := int_counter) lazy 3%Z (cached 3%Z))
    as (_ & Hrun); [reflexivity |].
  apply Hrun.
Defined.

(** [isEvaluated] on an unevaluated instance. *)
Lemma isEvaluated_is_pure_build_int :
  LazyConcept.isEvaluated lazy (unevaluated build_int)
  = Returned false (unevaluated build_int).
Proof.
  destruct (isEvaluated_is_pure (H := int_counter) lazy
              (VariantLazy_object (holds_evaluator build_int))
              (unevaluated build_int))
    as (E & _); [reflexivity |].
  exact E.
Defined.

(** A handle of [build_int]: query, read, copy, read. *)
Lemma SharedLazy_is_read_only_build_int :
  ∃ m', final (run_handle_operations (SharedLazy.ctor (Some lazy))
                 [h_isEvaluated; h_star; h_copy; h_get_value]
                 (unevaluated build_int))
        = Some m'.
Proof.
  destruct (SharedLazy_is_read_only (H := int_counter)
              (SharedLazy.ctor (Some lazy)) lazy
              (VariantLazy_object (holds_evaluator build_int))
              [h_isEvaluated; h_star; h_copy; h_get_value]
              (unevaluated build_int))
    as ((m' & E & _) & _); [reflexivity | reflexivity |].
  exists m'. exact E.
Defined.

(** A copy of the unevaluated counting instance. *)
Lemma VariantLazy_copies_are_independent_counter :
  ∃ copy m', VariantLazy.copy_ctor lazy (unevaluated increment)
             = Returned copy m'
    ∧ copy ≠ lazy.
Proof.
  destruct (VariantLazy_copies_are_independent (H := int_counter) lazy
              (holds_evaluator increment) (unevaluated increment))
    as (copy & m' & E & Hne & _); [reflexivity |].
  exists copy, m'. split; assumption.
Defined.
End Instances.

(** ** Programs as a whole *)

Section Programs.
Context `{Template}.
Implicit Types (m : machine) (this p q : loc) (o : object) (s : variant)
  (v : value_type) (f : evaluator_type) (op : operation)
  (prog : list (loc * operation)) (h : SharedLazy.t).

Lemma machine_eta m : Machine (world m) (heap m) (invoked m) = m.
Proof. by destruct m. Qed.

Lemma LazyConcept_do_deref_dangling this m :
  heap m !! this = None → LazyConcept.do_deref this m = Undefined.
Proof.
  intros Ho. unfold LazyConcept.do_deref.
  by rewrite bind_run, (load_dangling _ _ Ho).
Qed.

Lemma LazyConcept_do_reassign_dangling this v m :
  heap m !! this = None → LazyConcept.do_reassign this v m = Undefined.
Proof.
  intros Ho. unfold LazyConcept.do_reassign.
  by rewrite bind_run, (load_dangling _ _ Ho).
Qed.

(** The machines a member call can leave. *)
Lemma run_operation_step this op m m' :
  final (run_operation this op m) = Some m' →
  (run_operation this op m = Returned tt m'
   ∧ (m' = m
      ∨ (∃ o v, heap m !! this = Some o
           ∧ m' = Machine (world m) (<[this := reassigned o v]> (heap m))
                    (invoked m))
      ∨ (∃ f v, heap m !! this = Some (VariantLazy_object (holds_evaluator f))
           ∧ m' = assigned this (holds_value v)
                    (produced this (f (world m)).1 m))))
  ∨ (∃ f x, heap m !! this = Some (VariantLazy_object (holds_evaluator f))
       ∧ run_operation this op m = Thrown x m'
       ∧ (f (world m)).2 = thrown x
       ∧ m' = produced this (f (world m)).1 m).
Proof.
  intros Hm'. destruct (heap m !! this) as [o|] eqn:Ho;
    [|by rewrite (run_operation_dangling _ _ _ Ho) in Hm'].
  destruct (run_operation_cases this o op m Ho)
    as [E|[(v & _ & E)|(f & -> & E)]].
  - left. rewrite E in Hm'. simplify_eq/=. split; [done|by left].
  - left. rewrite E in Hm'. simplify_eq/=. split; [done|].
    right; left. by exists o, v.
  - destruct (f (world m)).2 as [v|x] eqn:Hf; rewrite E in Hm'; simplify_eq/=.
    + left. split; [done|]. right; right. by exists f, v.
    + right. by exists f, x.
Qed.

(** A property of single member calls that composes holds of programs. *)
Lemma run_operations_rel (R : machine → machine → Prop) :
  (∀ m, R m m) →
  (∀ m1 m2 m3, R m1 m2 → R m2 m3 → R m1 m3) →
  (∀ p op m m', final (run_operation p op m) = Some m' → R m m') →
  ∀ prog m m', final (run_operations prog m) = Some m' → R m m'.
Proof.
  intros Hrefl Htrans Hstep prog.
  induction prog as [|[p op] prog IH]; intros m m' Hm'.
  - simplify_eq/=. apply Hrefl.
  - rewrite run_operations_cons in Hm'.
    destruct (run_operation p op m) as [[] m1|x m1|] eqn:E; [| |done].
    + apply (Htrans m m1 m'); [|by apply IH].
      apply (Hstep p op). by rewrite E.
    + apply (Hstep p op). by rewrite E.
Qed.

(** An instance that holds a producer after a member call held the same
    producer before it. *)
Lemma run_operation_unevaluated_before this q f op m m' :
  final (run_operation this op m) = Some m' →
  heap m' !! q = Some (VariantLazy_object (holds_evaluator f)) →
  heap m !! q = Some (VariantLazy_object (holds_evaluator f)).
Proof.
  intros Hm' Hq.
  destruct (run_operation_step _ _ _ _ Hm')
    as [(_ & [->|[(o & v & Ho & ->)|(g & v & Hg & ->)]])
       |(g & x & _ & _ & _ & ->)];
    try done.
  - cbn [heap] in Hq. destruct (decide (q = this)) as [->|Hne].
    + rewrite lookup_insert_eq in Hq. by destruct o.
    + by rewrite lookup_insert_ne in Hq.
  - destruct (decide (q = this)) as [->|Hne].
    + by rewrite assigned_lookup in Hq.
    + by rewrite assigned_lookup_ne in Hq.
Qed.

Lemma run_operations_unevaluated_before q f prog m m' :
  final (run_operations prog m) = Some m' →
  heap m' !! q = Some (VariantLazy_object (holds_evaluator f)) →
  heap m !! q = Some (VariantLazy_object (holds_evaluator f)).
Proof.
  revert prog m m'.
  apply (run_operations_rel (λ m m',
    heap m' !! q = Some (VariantLazy_object (holds_evaluator f)) →
    heap m !! q = Some (VariantLazy_object (holds_evaluator f)))); auto.
  intros p op m m'. apply run_operation_unevaluated_before.
Qed.

(** What a member call that throws has done. *)
Lemma run_operation_thrown this op x m m' :
  run_operation this op m = Thrown x m' →
  ∃ f, heap m !! this = Some (VariantLazy_object (holds_evaluator f))
    ∧ f (world m) = (world m', thrown x)
    ∧ m' = produced this (world m') m.
Proof.
  intros E.
  destruct (run_operation_step this op m m')
    as [(E' & _)|(f & y & Hf & E' & Hy & ->)];
    [by rewrite E|congruence|].
  rewrite E in E'. simplify_eq. exists f. repeat split; [done|].
  cbn [world produced]. rewrite <- Hy. by destruct (f (world m)).
Qed.


(** The producer calls of a program: each one is the call of another
    instance, which held its producer when the program began; without a
    call the world is as it was. *)
Lemma run_operations_log prog m m' :
  final (run_operations prog m) = Some m' →
  ∃ new, invoked m' = new ++ invoked m
    ∧ NoDup new
    ∧ (∀ q, q ∈ new →
         ∃ f, heap m !! q = Some (VariantLazy_object (holds_evaluator f)))
    ∧ (new = [] → world m' = world m).
Proof.
  revert m. induction prog as [|[p op] prog IH]; intros m Hm'.
  { simplify_eq/=. exists []. repeat split; [constructor|set_solver]. }
  rewrite run_operations_cons in Hm'.
  destruct (run_operation p op m) as [[] m1|x m1|] eqn:E; [| |done].
  - destruct (IH m1 Hm') as (new & Hlog & Hnd & Hnew & Hw).
    assert (Hbefore : ∀ q, q ∈ new →
      ∃ f, heap m !! q = Some (VariantLazy_object (holds_evaluator f))).
    { intros q Hq. destruct (Hnew q Hq) as (f & Hf). exists f.
      apply (run_operation_unevaluated_before p q f op m m1); [|done].
      by rewrite E. }
    destruct (run_operation_step p op m m1)
      as [(_ & [->|[(o & v & Ho & ->)|(f & v & Hf & ->)]])
         |(f & y & _ & E' & _)];
      [by rewrite E| | | |congruence].
    + by exists new.
    + by exists new.
    + exists (new ++ [p]). rewrite <- (assoc_L (++)). repeat split.
      * done.
      * apply NoDup_app. repeat split; [done| |apply NoDup_singleton].
        intros q Hq ->%list_elem_of_singleton.
        destruct (Hnew p Hq) as (g & Hg). by rewrite assigned_lookup in Hg.
      * intros q [Hq| ->%list_elem_of_singleton]%elem_of_app; eauto.
      * by intros [_ ?]%app_eq_nil.
  - simplify_eq/=.
    destruct (run_operation_thrown p op x m m' E) as (f & Hf & _ & ->).
    exists [p]. repeat split; [apply NoDup_singleton| |done].
    intros q ->%list_elem_of_singleton. eauto.
Qed.


(** X2. The members have no effect on the world of their own: a program
    that called no producer leaves the world as it was. *)
Theorem world_changes_only_in_producers prog m m' :
  final (run_operations prog m) = Some m' →
  invoked m' = invoked m →
  world m' = world m.
Proof.
  intros Hm' Hi. destruct (run_operations_log prog m m' Hm')
    as (new & Hlog & _ & _ & Hw).
  apply Hw. rewrite Hi in Hlog.
  apply (f_equal length) in Hlog. rewrite length_app in Hlog.
  apply length_zero_iff_nil. lia.
Qed.

(** X3. A read throws only what the producer threw: a read that throws
    was the read of an instance that holds its producer, the exception is
    the one the producer raised, and the machine is the one the producer's
    call left, with the instance still holding the producer.  In
    particular [std::get] never raises [std::bad_variant_access] of its
    own in [do_deref]. *)
Theorem read_throws_only_what_the_producer_throws this (a : access) x m m' :
  perform this a m = Thrown x m' →
  ∃ f w, heap m !! this = Some (VariantLazy_object (holds_evaluator f))
    ∧ f (world m) = (w, thrown x)
    ∧ m' = produced this w m
    ∧ heap m' !! this = Some (VariantLazy_object (holds_evaluator f)).
Proof.
  rewrite perform_do_deref. intros E.
  destruct (heap m !! this) as [[v|[v|f]]|] eqn:Ho.
  - by rewrite (LazyConcept_do_deref_NotLazy _ _ _ Ho) in E.
  - by rewrite (LazyConcept_do_deref_value _ _ _ Ho) in E.
  - rewrite (LazyConcept_do_deref_evaluator _ _ _ Ho) in E.
    destruct (f (world m)) as [w [v|y]] eqn:Hf; cbn [fst snd] in E; [done|].
    simplify_eq. by exists f, w.
  - by rewrite (LazyConcept_do_deref_dangling _ _ Ho) in E.
Qed.

(** X4. A program that throws: the exception is the one raised by the
    producer of the instance the log names last, which held that producer
    when the program began and still holds it. *)
Theorem program_throws_only_what_a_producer_throws prog x m m' :
  run_operations prog m = Thrown x m' →
  ∃ q f w, head (invoked m') = Some q
    ∧ f w = (world m', thrown x)
    ∧ heap m !! q = Some (VariantLazy_object (holds_evaluator f))
    ∧ heap m' !! q = Some (VariantLazy_object (holds_evaluator f)).
Proof.
  revert m. induction prog as [|[p op] prog IH]; intros m Hm'; [done|].
  rewrite run_operations_cons in Hm'.
  destruct (run_operation p op m) as [[] m1|y m1|] eqn:E; [| |done].
  - destruct (IH m1 Hm') as (q & f & w & Hi & Hf & Hq1 & Hq').
    exists q, f, w. repeat split; try done.
    apply (run_operation_unevaluated_before p q f op m m1); [|done].
    by rewrite E.
  - simplify_eq.
    destruct (run_operation_thrown p op x m m' E) as (f & Hf & Hw & ->).
    by exists p, f, (world m).
Qed.
(** How the heap after a program relates to the heap before it. *)
Lemma run_operations_heap prog m m' :
  final (run_operations prog m) = Some m' →
  (∀ q, heap m !! q = None → heap m' !! q = None)
  ∧ ∀ q o, heap m !! q = Some o →
      ∃ o', heap m' !! q = Some o'
        ∧ dynamic_type o' = dynamic_type o
        ∧ (evaluated o = true → evaluated o' = true).
Proof.
  revert prog m m'. apply run_operations_rel.
  - intros m. split; [done|]. intros q o Ho. by exists o.
  - intros m1 m2 m3 [Hn12 Hs12] [Hn23 Hs23]. split; [by auto|].
    intros q o Ho. destruct (Hs12 q o Ho) as (o2 & Ho2 & Hc2 & He2).
    destruct (Hs23 q o2 Ho2) as (o3 & Ho3 & Hc3 & He3).
    exists o3. repeat split; [done|congruence|auto].
  - intros p op m m' Hm'.
    destruct (run_operation_step _ _ _ _ Hm')
      as [(_ & [->|[(o & v & Ho & ->)|(f & v & Hf & ->)]])
         |(f & x & _ & _ & _ & ->)].
    + split; [done|]. intros q o Ho. by exists o.
    + split; cbn [heap].
      * intros q Hq. rewrite lookup_insert_ne; [done|congruence].
      * intros q o' Hq. destruct (decide (q = p)) as [->|Hne].
        -- rewrite lookup_insert_eq. exists (reassigned o v).
           simplify_eq. by destruct o.
        -- rewrite lookup_insert_ne by done. by exists o'.
    + split.
      * intros q Hq. rewrite assigned_lookup_ne; [done|congruence].
      * intros q o' Hq. destruct (decide (q = p)) as [->|Hne].
        -- rewrite assigned_lookup. simplify_eq. by eexists.
        -- rewrite assigned_lookup_ne by done. by exists o'.
    + split; [done|]. intros q o Ho. by exists o.
Qed.

(** X5. Members neither create nor destroy instances, and an instance
    keeps its class: after a program the same addresses hold instances,
    each of the class it had, and each instance that was evaluated still
    is. *)
Theorem members_keep_the_instances prog m m' :
  final (run_operations prog m) = Some m' →
  dom (heap m') = dom (heap m)
  ∧ ∀ q o, heap m !! q = Some o →
      ∃ o', heap m' !! q = Some o'
        ∧ dynamic_type o' = dynamic_type o
        ∧ (evaluated o = true → evaluated o' = true).
Proof.
  intros Hm'. destruct (run_operations_heap prog m m' Hm') as [Hn Hs].
  split; [|done]. apply set_eq. intros q. rewrite !elem_of_dom.
  destruct (heap m !! q) as [o|] eqn:Ho.
  - destruct (Hs q o Ho) as (o' & -> & _). by split.
  - rewrite (Hn q Ho). by split.
Qed.

(** X6. The last assignment wins: two assignments in a row leave the
    machine that the second alone leaves, on every machine (through a
    dangling pointer both are undefined). *)
Theorem last_assignment_wins this (v1 v2 : value_type) m :
  (LazyConcept.operator_assign this v1;; LazyConcept.operator_assign this v2) m
  = LazyConcept.operator_assign this v2 m.
Proof.
  unfold LazyConcept.operator_assign. rewrite bind_run.
  destruct (heap m !! this) as [o|] eqn:Ho.
  - rewrite (LazyConcept_do_reassign_run _ _ v1 _ Ho).
    rewrite (LazyConcept_do_reassign_run _ _ v2 _ Ho).
    rewrite (LazyConcept_do_reassign_run this (reassigned o v1) v2);
      [|apply lookup_insert_eq].
    cbn [world heap invoked]. rewrite insert_insert_eq. by destruct o.
  - by rewrite !(LazyConcept_do_reassign_dangling _ _ _ Ho).
Qed.

(** X7. Writing back what was read changes nothing more: a read followed
    by the assignment of the value read leaves the machine the read alone
    leaves, on every machine and whether the read evaluates, throws or is
    undefined. *)
Theorem assigning_the_value_read_is_a_read this (a : access) m :
  (v ← perform this a; LazyConcept.operator_assign this v) m
  = (perform this a;; mret tt) m.
Proof.
  rewrite !bind_run, perform_do_deref. unfold LazyConcept.operator_assign.
  assert (Hback : ∀ o v m1, heap m1 !! this = Some o → reassigned o v = o →
    LazyConcept.do_reassign this v m1 = Returned tt m1).
  { intros o v m1 Ho Hv. rewrite (LazyConcept_do_reassign_run _ _ v _ Ho), Hv.
    by rewrite insert_id, machine_eta. }
  destruct (heap m !! this) as [[v|[v|f]]|] eqn:Ho.
  - rewrite (LazyConcept_do_deref_NotLazy _ _ _ Ho). by apply (Hback _ _ _ Ho).
  - rewrite (LazyConcept_do_deref_value _ _ _ Ho). by apply (Hback _ _ _ Ho).
  - rewrite (LazyConcept_do_deref_evaluator _ _ _ Ho).
    destruct (f (world m)).2 as [v|x]; [|done].
    by apply (Hback (VariantLazy_object (holds_value v)));
      [apply assigned_lookup|].
  - by rewrite (LazyConcept_do_deref_dangling _ _ Ho).
Qed.

(** X8. An assignment to the shared instance is seen through every
    handle: after [operator=] on the instance, every handle of it reports
    evaluated and reads the assigned value, and the reads change
    nothing. *)
Theorem assignment_is_seen_through_handles p o v m :
  heap m !! p = Some o →
  ∃ m', LazyConcept.operator_assign p v m = Returned tt m'
    ∧ ∀ h, SharedLazy.pimpl h = Some p →
        SharedLazy.isEvaluated h m' = Returned true m'
        ∧ SharedLazy.get_value h m' = Returned v m'
        ∧ SharedLazy.operator_star h m' = Returned v m'.
Proof.
  intros Ho. eexists. split; [by apply LazyConcept_do_reassign_run|].
  set (m' := Machine _ _ _).
  assert (Ho' : heap m' !! p = Some (reassigned o v))
    by apply lookup_insert_eq.
  assert (Hv : LazyConcept.do_deref p m' = Returned v m').
  { destruct o; cbn [reassigned] in Ho'.
    - by apply LazyConcept_do_deref_NotLazy.
    - by apply LazyConcept_do_deref_value. }
  intros h Hp. repeat split.
  - rewrite (SharedLazy_isEvaluated_run _ _ _ _ Hp Ho'). by destruct o.
  - by rewrite (SharedLazy_get_value_run _ _ _ Hp).
  - by rewrite (SharedLazy_operator_star_run _ _ _ Hp).
Qed.

(** X9. [SharedLazy] does not check its pointer: a member call on a handle
    is defined exactly when the pointer is not null and points to an
    instance; on a handle made from a null pointer every member is
    undefined. *)
Theorem handle_members_need_an_instance h m :
  (is_Some (final (SharedLazy.operator_star h m))
   ↔ ∃ p, SharedLazy.pimpl h = Some p ∧ is_Some (heap m !! p))
  ∧ (is_Some (final (SharedLazy.get_value h m))
     ↔ ∃ p, SharedLazy.pimpl h = Some p ∧ is_Some (heap m !! p))
  ∧ (is_Some (final (SharedLazy.isEvaluated h m))
     ↔ ∃ p, SharedLazy.pimpl h = Some p ∧ is_Some (heap m !! p)).
Proof.
  assert (Hderef : ∀ p, is_Some (final (LazyConcept.do_deref p m))
                        ↔ is_Some (heap m !! p)).
  { intros p. destruct (heap m !! p) as [[v|[v|f]]|] eqn:Ho.
    - by rewrite (LazyConcept_do_deref_NotLazy _ _ _ Ho).
    - by rewrite (LazyConcept_do_deref_value _ _ _ Ho).
    - rewrite (LazyConcept_do_deref_evaluator _ _ _ Ho).
      by destruct (f (world m)).2.
    - rewrite (LazyConcept_do_deref_dangling _ _ Ho). cbn.
      by rewrite <- !not_eq_None_Some. }
  destruct h as [[p|]].
  - rewrite (SharedLazy_operator_star_run _ p), (SharedLazy_get_value_run _ p)
      by done.
    repeat split.
    1,3: intros Hd; exists p; split; [done|by apply Hderef].
    1,2: intros (p' & [= <-] & Hp); by apply Hderef.
    + intros Hd. exists p. split; [done|].
      destruct (heap m !! p) as [o|] eqn:Ho; [done|].
      unfold SharedLazy.isEvaluated, SharedLazy.arrow,
        LazyConcept.isEvaluated in Hd.
      cbn [SharedLazy.pimpl] in Hd.
      rewrite ret_bind_run, bind_run, (load_dangling _ _ Ho) in Hd.
      by destruct Hd.
    + intros (p' & [= <-] & [o Ho]).
      by rewrite (SharedLazy_isEvaluated_run _ p o).
  - repeat split; try (by intros (p & [=] & _)); intros [m' Hd]; done.
Qed.

(** X11. Evaluated instances cannot fail: a program whose every call is on
    an instance that is evaluated when the program begins runs to its end
    without an exception, calls no producer and leaves the world as it
    was. *)
Theorem programs_on_evaluated_instances_return prog m :
  Forall (λ c, ∃ o, heap m !! c.1 = Some o ∧ evaluated o = true) prog →
  ∃ m', run_operations prog m = Returned tt m'
    ∧ world m' = world m
    ∧ invoked m' = invoked m.
Proof.
  revert m. induction prog as [|[p op] prog IH]; intros m Hprog.
  { by exists m. }
  apply Forall_cons in Hprog as [(o & Ho & He) Hprog]. cbn [fst] in Ho.
  destruct (run_operation_evaluated_self p o op m Ho He)
    as (m1 & o1 & E & Hw1 & Hi1 & _).
  rewrite run_operations_cons, E.
  destruct (IH m1) as (m' & E' & Hw & Hi).
  - eapply Forall_impl; [exact Hprog|]. intros [q op'] (oq & Hq & Heq).
    cbn [fst] in *.
    destruct (run_operation_evaluated p q oq op m m1 Hq Heq)
      as (oq' & Hq' & Heq' & _); [by rewrite E|].
    by exists oq'.
  - exists m'. repeat split; congruence.
Qed.

(** A read or an assignment that returns leaves the instance evaluated. *)
Lemma run_operation_returned_evaluated p op m m' :
  run_operation p op m = Returned tt m' →
  op ≠ op_isEvaluated →
  ∃ o', heap m' !! p = Some o' ∧ evaluated o' = true.
Proof.
  intros E Hop. destruct (heap m !! p) as [o|] eqn:Ho;
    [|by rewrite (run_operation_dangling _ _ _ Ho) in E].
  assert (Hderef :
    (LazyConcept.do_deref p ≫= λ _, mret tt) m = Returned tt m' →
    ∃ o', heap m' !! p = Some o' ∧ evaluated o' = true).
  { rewrite bind_run. destruct o as [v|[v|f]].
    - rewrite (LazyConcept_do_deref_NotLazy _ _ _ Ho). intros [= <-]. eauto.
    - rewrite (LazyConcept_do_deref_value _ _ _ Ho). intros [= <-]. eauto.
    - rewrite (LazyConcept_do_deref_evaluator _ _ _ Ho).
      destruct (f (world m)).2 as [v|x]; [|done]. intros [= <-].
      eexists. split; [apply assigned_lookup|done]. }
  destruct op as [| | |v]; [by apply Hderef|by apply Hderef|done|].
  cbn [run_operation] in E. unfold LazyConcept.operator_assign in E.
  rewrite (LazyConcept_do_reassign_run _ _ _ _ Ho) in E. simplify_eq.
  eexists. split; [apply lookup_insert_eq|by destruct o].
Qed.

(** X12. What a program that returns has read or assigned is evaluated:
    after the program, every instance on which it called [operator*],
    [get_value] or [operator=] holds its value. *)
Theorem what_was_read_is_evaluated prog p op m m' :
  run_operations prog m = Returned tt m' →
  (p, op) ∈ prog →
  op ≠ op_isEvaluated →
  ∃ o', heap m' !! p = Some o' ∧ evaluated o' = true.
Proof.
  revert m. induction prog as [|[q op'] prog IH]; intros m Hm' Hin Hop.
  { by apply elem_of_nil in Hin. }
  rewrite run_operations_cons in Hm'.
  destruct (run_operation q op' m) as [[] m1|x m1|] eqn:E; [|done..].
  apply elem_of_cons in Hin as [[= <- <-]|Hin]; [|by apply (IH m1)].
  destruct (run_operation_returned_evaluated p op m m1 E Hop)
    as (o1 & Ho1 & He1).
  destruct (run_operations_evaluated p o1 prog m1 m' Ho1 He1)
    as (o' & Ho' & He' & _); [by rewrite Hm'|].
  by exists o'.
Qed.

(** X14. A copy made after the evaluation does not compute again: the copy
    of an evaluated [VariantLazy] is made without a producer call, is
    evaluated, and every read of it returns the cached value and changes
    nothing. *)
Theorem copy_of_evaluated_is_evaluated this v m :
  heap m !! this = Some (VariantLazy_object (holds_value v)) →
  ∃ copy m', VariantLazy.copy_ctor this m = Returned copy m'
    ∧ copy ≠ this
    ∧ world m' = world m
    ∧ invoked m' = invoked m
    ∧ LazyConcept.isEvaluated copy m' = Returned true m'
    ∧ ∀ a : access, perform copy a m' = Returned v m'.
Proof.
  intros Hv. unfold VariantLazy.copy_ctor.
  rewrite bind_run, (VariantLazy_storage_run _ _ _ Hv). unfold alloc.
  set (copy := fresh _). set (m' := Machine _ _ _).
  assert (Hfresh : heap m !! copy = None) by apply not_elem_of_dom, is_fresh.
  assert (Hcopy : heap m' !! copy = Some (VariantLazy_object (holds_value v)))
    by apply lookup_insert_eq.
  exists copy, m'. repeat split; try done.
  - congruence.
  - apply (LazyConcept_isEvaluated_run _ _ _ Hcopy).
  - intros a. rewrite perform_do_deref. by apply LazyConcept_do_deref_value.
Qed.
End Programs.

(** ** The properties of programs at the instances of the tests *)

Section ProgramInstances.
Import Tests.


Lemma world_changes_only_in_producers_counter :
  ∃ m', final (run_operations
                 [(lazy, op_isEvaluated); (lazy, @op_assign int_counter 5%Z)]
                 (unevaluated increment)) = Some m'
    ∧ world m' = 0%Z.
Proof.
  eexists. split; [reflexivity|].
  apply (world_changes_only_in_producers (H := int_counter)
           [(lazy, op_isEvaluated); (lazy, @op_assign int_counter 5%Z)]
           (unevaluated increment)); reflexivity.
Defined.

Lemma read_throws_only_what_the_producer_throws_fail_once :
  ∃ f w, heap (unevaluated fail_once) !! lazy
         = Some (VariantLazy_object (holds_evaluator f))
    ∧ f 0%Z = (w, thrown failure).
Proof.
  edestruct (read_throws_only_what_the_producer_throws (H := int_counter)
              lazy by_get_value failure (unevaluated fail_once))
    as (f & w & Hf & Hw & _); [reflexivity|].
  exists f, w. split; assumption.
Defined.

Lemma program_throws_only_what_a_producer_throws_fail_once :
  ∃ m' q, run_operations [(lazy, op_isEvaluated); (lazy, op_star)]
            (unevaluated fail_once) = Thrown failure m'
    ∧ head (invoked m') = Some q.
Proof.
  eexists.
  edestruct (program_throws_only_what_a_producer_throws (H := int_counter)
              [(lazy, op_isEvaluated); (lazy, op_star)] failure
              (unevaluated fail_once))
    as (q & _ & _ & Hq & _); [reflexivity|].
  exists q. split; [reflexivity|exact Hq].
Defined.

Lemma members_keep_the_instances_counter :
  ∃ m', final (run_operations
                 [(lazy, op_star); (lazy, @op_assign int_counter 5%Z)]
                 (unevaluated increment)) = Some m'
    ∧ dom (heap m') = dom (heap (unevaluated increment)).
Proof.
  eexists. split; [reflexivity|].
  apply (members_keep_the_instances (H := int_counter)
           [(lazy, op_star); (lazy, @op_assign int_counter 5%Z)]
           (unevaluated increment)).
  reflexivity.
Defined.

Lemma assignment_is_seen_through_handles_build_int :
  ∃ m', LazyConcept.operator_assign lazy 5%Z (unevaluated build_int)
        = Returned tt m'
    ∧ SharedLazy.get_value (SharedLazy.ctor (Some lazy)) m' = Returned 5%Z m'.
Proof.
  destruct (assignment_is_seen_through_handles (H := int_counter) lazy
              (VariantLazy_object (holds_evaluator build_int)) 5%Z
              (unevaluated build_int))
    as (m' & E & Hh); [reflexivity|].
  exists m'. split; [exact E|].
  apply (Hh (SharedLazy.ctor (Some lazy))). reflexivity.
Defined.


Lemma programs_on_evaluated_instances_return_three :
  ∃ m', run_operations [(lazy, op_star); (lazy, @op_assign int_counter 5%Z)]
          (cached 3%Z)
        = Returned tt m'
    ∧ world m' = 0%Z.
Proof.
  destruct (programs_on_evaluated_instances_return (H := int_counter)
              [(lazy, op_star); (lazy, @op_assign int_counter 5%Z)]
              (cached 3%Z))
    as (m' & E & Hw & _).
  - constructor; [eexists; split; reflexivity|].
    constructor; [eexists; split; reflexivity|]. constructor.
  - exists m'. split; assumption.
Defined.

Lemma what_was_read_is_evaluated_counter :
  ∃ m' o', run_operations [(lazy, op_get_value)] (unevaluated increment)
           = Returned tt m'
    ∧ heap m' !! lazy = Some o'.
Proof.
  eexists.
  edestruct (what_was_read_is_evaluated (H := int_counter)
              [(lazy, op_get_value)] lazy op_get_value
              (unevaluated increment))
    as (o' & Ho' & _);
    [reflexivity|apply list_elem_of_here|discriminate|].
  exists o'. split; [reflexivity|exact Ho'].
Defined.


Lemma copy_of_evaluated_is_evaluated_three :
  ∃ copy m', VariantLazy.copy_ctor lazy (cached 3%Z) = Returned copy m'
    ∧ perform copy by_operator_star m' = Returned 3%Z m'.
Proof.
  destruct (copy_of_evaluated_is_evaluated (H := int_counter) lazy 3%Z
              (cached 3%Z))
    as (copy & m' & E & _ & _ & _ & _ & Hread); [reflexivity|].
  exists copy, m'. split; [exact E|apply Hread].
Defined.
End ProgramInstances.
